(** * Content lookup and filtering of the fashion blog (fashion_webapp/app.py)

    A shallow embedding of the Flask application: the post records, the
    module-level store [posts], the three lookups performed by the routes
    [/post/<slug>], [/category/<name>] and [/tag/<name>], and the stub
    creation route [/admin/new_post].  The view functions run in a small
    state-and-exception monad over the process state (the store and the
    standard output), so that "the store is not mutated" and "no exception is
    raised" are statements about what a view function returns. *)

From Stdlib Require Import ZArith String Ascii.
From stdpp Require Import base decidable option list strings.

Local Open Scope string_scope.
Local Open Scope Z_scope.
Local Open Scope list_scope.

(** ** Data model *)

(** A post is the dict literal of app.py, lines 15-34: eight keys, each
    always present. *)
Module Post.

Record t : Type := mk {
  id : Z;
  title : string;
  slug : string;
  content : string;
  image : string;
  category : string;
  tags : list string;
  date : string
}.

#[global] Instance eq_dec : EqDecision t.
Proof. solve_decision. Defined.

End Post.

(** app.py, lines 14-36. *)
Definition posts : list Post.t :=
  [ Post.mk 1 "The Rise of Sustainable Fashion" "sustainable-fashion"
      "Explore the growing movement towards eco-conscious clothing..."
      "static/img/sustainable.jpg" "Trends"
      ["sustainable"; "eco-friendly"; "fashion"] "2025-05-09";
    Post.mk 2 "Styling a Classic Trench Coat" "trench-coat-styling"
      "Versatile ways to wear a timeless trench coat..."
      "static/img/trench.jpg" "Style Tips"
      ["classic"; "outerwear"; "styling"] "2025-05-08" ].

(** app.py, lines 38-39. *)
Definition categories : list string :=
  ["Trends"; "Style Tips"; "Designer Spotlights"].

Definition tags : list string :=
  ["sustainable"; "eco-friendly"; "fashion"; "classic"; "outerwear"; "styling"].

(** ** Process state, exceptions and the monad of view functions *)

(** What a view function can read or write: the global list [posts] and the
    lines printed so far. *)
Record World : Type := mkWorld {
  store : list Post.t;
  stdout : list string
}.

Definition initial_world : World := mkWorld posts [].

(** The names given to [@app.route] handlers. *)
Inductive Endpoint : Type :=
  | ep_index | ep_post | ep_category | ep_tag | ep_about | ep_contact
  | ep_admin_dashboard | ep_admin_new_post.

(** The exceptions the code can raise: [request.form[k]] on a missing key,
    and [url_for] on a rule whose variable has no value. *)
Inductive Exn : Type :=
  | BadRequestKeyError (key : string)
  | BuildError (e : Endpoint).

Definition M (A : Type) : Type := World → (Exn + A) * World.

#[global] Instance M_ret : MRet M := λ A (a : A) w, (inr a, w).

#[global] Instance M_bind : MBind M := λ A B (f : A → M B) (m : M A) w,
  match m w with
  | (inr a, w') => f a w'
  | (inl e, w') => (inl e, w')
  end.

Definition raise {A : Type} (e : Exn) : M A := λ w, (inl e, w).

(** Reading the global [posts]. *)
Definition read_posts : M (list Post.t) := λ w, (inr (store w), w).

(** [print(line)]. *)
Definition print (line : string) : M unit :=
  λ w, (inr tt, mkWorld (store w) (stdout w ++ [line])).

(** ** Templates and responses *)

(** A call of [render_template]: the template file with its keyword
    arguments. *)
Inductive Template : Type :=
  | index_html (posts : list Post.t)
  | post_html (post : Post.t)
  | category_html (category : string) (posts : list Post.t)
  | tag_html (tag : string) (posts : list Post.t)
  | about_html
  | contact_html
  | admin_dashboard_html
  | admin_new_post_html
  | not_found_html.

Inductive Response : Type :=
  | Rendered (body : Template) (status : Z)
  | Redirect (location : string) (status : Z).

(** A view that returns [render_template(...)] answers 200; the pair
    [render_template(...), 404] answers 404. *)
Definition render_template (t : Template) : M Response :=
  mret (Rendered t 200).

Definition render_template_status (t : Template) (status : Z) : M Response :=
  mret (Rendered t status).

(** The rule of each endpoint, from the [@app.route] decorators. *)
Definition rule (e : Endpoint) : string :=
  match e with
  | ep_index => "/"
  | ep_post => "/post/<slug>"
  | ep_category => "/category/<name>"
  | ep_tag => "/tag/<name>"
  | ep_about => "/about"
  | ep_contact => "/contact"
  | ep_admin_dashboard => "/admin"
  | ep_admin_new_post => "/admin/new_post"
  end.

Definition has_variable (e : Endpoint) : bool :=
  match e with
  | ep_post | ep_category | ep_tag => true
  | _ => false
  end.

(** [url_for(endpoint)] with no values: the rule itself when it has no
    variable part, a [BuildError] otherwise. *)
Definition url_for (e : Endpoint) : M string :=
  if has_variable e then raise (BuildError e) else mret (rule e).

(** [redirect(location)]: status 302. *)
Definition redirect (location : string) : Response := Redirect location 302.

(** ** Requests *)

(** The part of [request] the code reads: the method and the form fields, in
    the order received.  [request.form[k]] is the first value sent for [k]. *)
Record Request : Type := mkRequest {
  method : string;
  form : list (string * string)
}.

Fixpoint form_lookup (k : string) (fields : list (string * string)) : option string :=
  match fields with
  | [] => None
  | (k', v) :: rest => if decide (k' = k) then Some v else form_lookup k rest
  end.

Definition form_get (req : Request) (k : string) : M string :=
  match form_lookup k (form req) with
  | Some v => mret v
  | None => raise (BadRequestKeyError k)
  end.

(** ** String helpers used by the creation route *)

(** [str.lower] on the ASCII letters. *)
Definition lower_ascii (c : ascii) : ascii :=
  let n := nat_of_ascii c in
  if (Nat.leb 65 n && Nat.leb n 90)%bool then ascii_of_nat (n + 32) else c.

Fixpoint lower (s : string) : string :=
  match s with
  | EmptyString => EmptyString
  | String c s' => String (lower_ascii c) (lower s')
  end.

(** [s.replace(old, new)] for one-character [old] and [new]. *)
Fixpoint replace (old new : ascii) (s : string) : string :=
  match s with
  | EmptyString => EmptyString
  | String c s' =>
      String (if Ascii.eqb c old then new else c) (replace old new s')
  end.

(** ** The lookups *)

(** [next(gen, None)]: the first item the generator yields, or [None]. *)
Definition next {A : Type} (gen : list A) : option A :=
  match gen with
  | [] => None
  | x :: _ => Some x
  end.

(** app.py, line 48:
    [next((p for p in posts if p['slug'] == slug), None)]. *)
Definition find_by_slug (slug : string) (posts : list Post.t) : option Post.t :=
  next (filter (λ p, Post.slug p = slug) posts).

(** app.py, line 55: [[p for p in posts if p['category'] == name]]. *)
Definition category_posts (name : string) (posts : list Post.t) : list Post.t :=
  filter (λ p, Post.category p = name) posts.

(** app.py, line 60: [[p for p in posts if name in p['tags']]]. *)
Definition tag_posts (name : string) (posts : list Post.t) : list Post.t :=
  filter (λ p, name ∈ Post.tags p) posts.

(** ** View functions *)

Definition index : M Response :=
  ps ← read_posts;
  render_template (index_html ps).

(** [if post:] tests a dict for truth; a post has eight keys, so the test
    separates a found post from [None]. *)
Definition post (slug : string) : M Response :=
  ps ← read_posts;
  match find_by_slug slug ps with
  | Some p => render_template (post_html p)
  | None => render_template_status not_found_html 404
  end.

Definition category (name : string) : M Response :=
  ps ← read_posts;
  render_template (category_html name (category_posts name ps)).

Definition tag (name : string) : M Response :=
  ps ← read_posts;
  render_template (tag_html name (tag_posts name ps)).

Definition about : M Response := render_template about_html.

Definition contact : M Response := render_template contact_html.

Definition admin_dashboard : M Response := render_template admin_dashboard_html.

(** app.py, lines 77-85.  The local [slug] is computed and never used. *)
Definition admin_new_post (req : Request) : M Response :=
  if decide (method req = "POST") then
    title ← form_get req "title";
    let slug := replace " " "-" (lower title) in
    content ← form_get req "content";
    _ ← print ("New post created: " +:+ title);
    location ← url_for ep_admin_dashboard;
    mret (redirect location)
  else render_template admin_new_post_html.

(** The handler registered for 404 (app.py, lines 88-90). *)
Definition page_not_found : M Response :=
  render_template_status not_found_html 404.

(** ** Specification vocabulary *)

(** The number of entries of [l] equal to [x]. *)
Definition occurrences {A : Type} `{EqDecision A} (x : A) (l : list A) : nat :=
  length (filter (λ y, y = x) l).

(** A computation that hands back the store it was given, whatever else it
    does to the state and whether or not it raises. *)
Definition preserves_store {A : Type} (m : M A) : Prop :=
  ∀ w, store (m w).2 = store w.

(** ** The creation route's slug, and serving requests in sequence *)

(** app.py, line 80: [title.lower().replace(' ', '-')], the value bound to
    the local [slug] of [admin_new_post]. *)
Definition new_post_slug (title : string) : string :=
  replace " " "-" (lower title).

(** What line 80 does to one character. *)
Definition slug_char (c : ascii) : ascii :=
  if Ascii.eqb (lower_ascii c) " " then "-"%char else lower_ascii c.

(** One request, named by the route it matches ([@app.route], lines 42-76);
    [NoRoute] is a path that matches none and goes to the 404 handler. *)
Inductive Call : Type :=
  | GetIndex
  | GetPost (slug : string)
  | GetCategory (name : string)
  | GetTag (name : string)
  | GetAbout
  | GetContact
  | GetAdminDashboard
  | AdminNewPost (req : Request)
  | NoRoute.

Definition dispatch (c : Call) : M Response :=
  match c with
  | GetIndex => index
  | GetPost slug => post slug
  | GetCategory name => category name
  | GetTag name => tag name
  | GetAbout => about
  | GetContact => contact
  | GetAdminDashboard => admin_dashboard
  | AdminNewPost req => admin_new_post req
  | NoRoute => page_not_found
  end.

(** The process state after a sequence of requests, served one after the
    other; a request whose view raises leaves the state its view reached. *)
Fixpoint serve_all (cs : list Call) (w : World) : World :=
  match cs with
  | [] => w
  | c :: cs' => serve_all cs' (dispatch c w).2
  end.

(** The title of a request that gets through [admin_new_post] to the
    [print]: a POST whose form has both fields. *)
Definition created_title (c : Call) : option string :=
  match c with
  | AdminNewPost req =>
      if decide (method req = "POST") then
        match form_lookup "title" (form req), form_lookup "content" (form req) with
        | Some title, Some _ => Some title
        | _, _ => None
        end
      else None
  | _ => None
  end.

(** Character classes of titles. *)
Definition is_ascii_char (c : ascii) : bool := Nat.ltb (nat_of_ascii c) 128.

Definition is_upper_char (c : ascii) : bool :=
  let n := nat_of_ascii c in (Nat.leb 65 n && Nat.leb n 90)%bool.

Definition is_space_char (c : ascii) : bool := Ascii.eqb c " ".

Fixpoint string_forallb (f : ascii → bool) (s : string) : bool :=
  match s with
  | EmptyString => true
  | String c s' => f c && string_forallb f s'
  end.

(** The titles on which [lower] is Python's [str.lower]. *)
Definition is_ascii (s : string) : bool := string_forallb is_ascii_char s.

(** * Properties *)

(** ** Running the string helpers and the lookups on the initial store *)

Example slug_of_title :
  replace " " "-" (lower "Styling a Classic Trench Coat") = "styling-a-classic-trench-coat".
Proof. reflexivity. Qed.

Example post_on_initial_store :
  find_by_slug "sustainable-fashion" posts = head posts.
Proof. reflexivity. Qed.

Example tag_on_initial_store :
  tag_posts "outerwear" posts = drop 1 posts.
Proof. reflexivity. Qed.

(** ** Equations of the lookups *)

Section Lookup.

Implicit Types (p q : Post.t) (l : list Post.t) (s c t : string).

Lemma find_by_slug_nil s : find_by_slug s [] = None.
Proof. reflexivity. Qed.

Lemma find_by_slug_cons_eq s p l :
  Post.slug p = s → find_by_slug s (p :: l) = Some p.
Proof.
  intros Hs. unfold find_by_slug. by rewrite filter_cons_True.
Qed.

Lemma find_by_slug_cons_ne s p l :
  Post.slug p ≠ s → find_by_slug s (p :: l) = find_by_slug s l.
Proof.
  intros Hs. unfold find_by_slug. by rewrite filter_cons_False.
Qed.

(** The scan skips a prefix in which no slug matches. *)
Lemma find_by_slug_skip s l1 l2 :
  Forall (λ q, Post.slug q ≠ s) l1 →
  find_by_slug s (l1 ++ l2) = find_by_slug s l2.
Proof.
  induction 1 as [|q l1 Hq _ IH]; simpl; [done|].
  by rewrite find_by_slug_cons_ne.
Qed.

Lemma find_by_slug_None s l :
  find_by_slug s l = None ↔ s ∉ Post.slug <$> l.
Proof.
  induction l as [|q l IH]; simpl.
  - split; [intros _; apply not_elem_of_nil | done].
  - rewrite not_elem_of_cons. destruct (decide (Post.slug q = s)) as [Heq|Hne].
    + rewrite find_by_slug_cons_eq by done. split; [done|]. intros [Hn _]. by destruct Hn.
    + rewrite find_by_slug_cons_ne by done. rewrite IH. split; [|tauto].
      intros Hl. split; [congruence|done].
Qed.

Lemma find_by_slug_Some s l p :
  find_by_slug s l = Some p ↔
  ∃ l1 l2, l = l1 ++ p :: l2 ∧ Post.slug p = s ∧ Forall (λ q, Post.slug q ≠ s) l1.
Proof.
  split.
  - induction l as [|q l IH]; [done|].
    destruct (decide (Post.slug q = s)) as [Heq|Hne].
    + rewrite find_by_slug_cons_eq by done. intros [= ->].
      by exists [], l.
    + rewrite find_by_slug_cons_ne by done. intros Hf.
      destruct (IH Hf) as (l1 & l2 & -> & Hs & Hall).
      exists (q :: l1), l2. split_and!; [done|done|by constructor].
  - intros (l1 & l2 & -> & Hs & Hall).
    rewrite find_by_slug_skip by done. by apply find_by_slug_cons_eq.
Qed.

Lemma category_posts_app c l1 l2 :
  category_posts c (l1 ++ l2) = category_posts c l1 ++ category_posts c l2.
Proof. apply filter_app. Qed.

Lemma tag_posts_app t l1 l2 :
  tag_posts t (l1 ++ l2) = tag_posts t l1 ++ tag_posts t l2.
Proof. apply filter_app. Qed.

Lemma category_posts_none c l :
  c ∉ Post.category <$> l → category_posts c l = [].
Proof.
  induction l as [|q l IH]; [done|]. simpl. rewrite not_elem_of_cons.
  intros [Hne Hl]. unfold category_posts.
  rewrite filter_cons_False by congruence. by apply IH.
Qed.

Lemma tag_posts_none t l :
  Forall (λ q, t ∉ Post.tags q) l → tag_posts t l = [].
Proof.
  induction 1 as [|q l Hq _ IH]; [done|].
  unfold tag_posts. by rewrite filter_cons_False.
Qed.

End Lookup.

Lemma occurrences_app {A : Type} `{EqDecision A} (x : A) (l1 l2 : list A) :
  occurrences x (l1 ++ l2) = (occurrences x l1 + occurrences x l2)%nat.
Proof. unfold occurrences. by rewrite filter_app, length_app. Qed.

(** Filtering keeps every entry that satisfies the test as often as the list
    has it, and drops the others. *)
Lemma occurrences_filter {A : Type} `{EqDecision A}
    (P : A → Prop) `{∀ y, Decision (P y)} (x : A) (l : list A) :
  occurrences x (filter P l) = if decide (P x) then occurrences x l else 0%nat.
Proof.
  unfold occurrences. induction l as [|y l IH].
  - by case_decide.
  - rewrite (filter_cons P), (filter_cons (λ y, y = x) y l).
    destruct (decide (P y)) as [Hy|Hy], (decide (y = x)) as [->|Hne];
      rewrite ?filter_cons_True, ?filter_cons_False by done; simpl; rewrite IH;
      by repeat case_decide.
Qed.


Lemma occurrences_not_elem_of {A : Type} `{EqDecision A} (x : A) (l : list A) :
  x ∉ l → occurrences x l = 0%nat.
Proof.
  unfold occurrences. induction l as [|y l IH]; [done|].
  rewrite not_elem_of_cons. intros [Hne Hl].
  rewrite filter_cons_False by congruence. by apply IH.
Qed.

Lemma occurrences_NoDup {A : Type} `{EqDecision A} (x : A) (l : list A) :
  NoDup l → x ∈ l → occurrences x l = 1%nat.
Proof.
  induction 1 as [|y l Hy Hnd IH]; [by intros ?%elem_of_nil|].
  change (y :: l) with ([y] ++ l). rewrite occurrences_app.
  intros [Heq|Hx]%elem_of_cons.
  - rewrite (occurrences_not_elem_of x l) by congruence.
    unfold occurrences. by rewrite filter_cons_True.
  - rewrite IH by done. unfold occurrences.
    rewrite filter_cons_False; [done|]. by intros ->.
Qed.

Lemma occurrences_pos_elem_of {A : Type} `{EqDecision A} (x : A) (l : list A) :
  (0 < occurrences x l)%nat → x ∈ l.
Proof.
  intros Hpos. destruct (decide (x ∈ l)) as [|Hn]; [done|].
  rewrite (occurrences_not_elem_of x l Hn) in Hpos. lia.
Qed.

(** ** The monad: what a view leaves of the store *)

Create HintDb frame discriminated.

Lemma preserves_store_ret {A : Type} (a : A) : preserves_store (mret a : M A).
Proof. by intros w. Qed.

Lemma preserves_store_raise {A : Type} (e : Exn) : preserves_store (raise e : M A).
Proof. by intros w. Qed.

Lemma preserves_store_bind {A B : Type} (m : M A) (f : A → M B) :
  preserves_store m → (∀ a, preserves_store (f a)) → preserves_store (m ≫= f).
Proof.
  intros Hm Hf w. unfold mbind, M_bind. specialize (Hm w).
  destruct (m w) as [[e|a] w']; simpl in *; [done|].
  by rewrite Hf.
Qed.

Lemma preserves_store_read_posts : preserves_store read_posts.
Proof. by intros w. Qed.

Lemma preserves_store_print line : preserves_store (print line).
Proof. by intros w. Qed.

Lemma preserves_store_form_get req k : preserves_store (form_get req k).
Proof. unfold form_get. by destruct (form_lookup k (form req)). Qed.

Lemma preserves_store_url_for e : preserves_store (url_for e).
Proof. unfold url_for. by destruct (has_variable e). Qed.

Lemma preserves_store_render_template t : preserves_store (render_template t).
Proof. by intros w. Qed.

Lemma preserves_store_render_template_status t status :
  preserves_store (render_template_status t status).
Proof. by intros w. Qed.

#[global] Hint Resolve preserves_store_ret preserves_store_raise
  preserves_store_read_posts preserves_store_print preserves_store_form_get
  preserves_store_url_for preserves_store_render_template
  preserves_store_render_template_status : frame.

Ltac frame_step :=
  first [ apply preserves_store_bind; [|intros ?] | solve [auto with frame] ].

Ltac solve_frame := repeat frame_step.

(** ** What the views return *)

Lemma post_run (slug : string) (w : World) :
  post slug w =
  (inr match find_by_slug slug (store w) with
       | Some p => Rendered (post_html p) 200
       | None => Rendered not_found_html 404
       end, w).
Proof.
  unfold post, mbind, M_bind, read_posts.
  by destruct (find_by_slug slug (store w)).
Qed.

Lemma category_run (name : string) (w : World) :
  category name w =
  (inr (Rendered (category_html name (category_posts name (store w))) 200), w).
Proof. reflexivity. Qed.

Lemma tag_run (name : string) (w : World) :
  tag name w = (inr (Rendered (tag_html name (tag_posts name (store w))) 200), w).
Proof. reflexivity. Qed.

Lemma form_lookup_is_Some (k : string) (fields : list (string * string)) :
  k ∈ fields.*1 → is_Some (form_lookup k fields).
Proof.
  induction fields as [|[k' v] fields IH]; simpl.
  - by intros ?%elem_of_nil.
  - intros Hk. destruct (decide (k' = k)) as [|Hne]; [by eexists|].
    apply IH. apply elem_of_cons in Hk as [Hk|Hk]; [by destruct Hne|done].
Qed.

(** * The claims *)

(** ** Find by slug *)

(** C1. For every store and slug [s], the lookup of line 48 scans the store
    in order and returns the first post whose slug is [s]: it returns [p]
    exactly when the store splits as [l1 ++ p :: l2] with [p] carrying slug
    [s] and no post of [l1] carrying it (so among duplicates the earliest
    wins); it returns [None] exactly when no post has slug [s]; and for a
    slug present in the store it returns a post with that slug. *)
Theorem find_by_slug_first_match (st : list Post.t) (s : string) :
  (∀ p, find_by_slug s st = Some p ↔
        ∃ l1 l2, st = l1 ++ p :: l2 ∧ Post.slug p = s ∧
                 Forall (λ q, Post.slug q ≠ s) l1)
  ∧ (find_by_slug s st = None ↔ s ∉ Post.slug <$> st)
  ∧ (s ∈ Post.slug <$> st → ∃ p, find_by_slug s st = Some p ∧ Post.slug p = s).
Proof.
  split_and!.
  - intros p. apply find_by_slug_Some.
  - apply find_by_slug_None.
  - intros Hin. destruct (find_by_slug s st) as [p|] eqn:Hf.
    + exists p. split; [done|].
      apply find_by_slug_Some in Hf as (_ & _ & _ & Hs & _). exact Hs.
    + apply find_by_slug_None in Hf. by destruct Hf.
Qed.

Lemma find_by_slug_first_match_witness :
  ∃ p, find_by_slug "trench-coat-styling" posts = Some p
       ∧ Post.slug p = "trench-coat-styling".
Proof.
  apply (find_by_slug_first_match posts "trench-coat-styling").
  vm_compute. apply list_elem_of_further, list_elem_of_here.
Defined.

(** ** Filter by category *)

(** C2. For every store and category [c], the list built at line 55 holds
    exactly the posts of category [c]: each element has category [c]; a post
    is in the result iff it is in the store with category [c]; every store
    entry of category [c] contributes one element, placed between what the
    entries before it and after it contribute (so the result has each such
    post as often as the store has it, once when the store has no repeated
    record); and the result is a subsequence of the store. *)
Theorem category_posts_exact (st : list Post.t) (c : string) :
  Forall (λ p, Post.category p = c) (category_posts c st)
  ∧ (∀ p, p ∈ category_posts c st ↔ p ∈ st ∧ Post.category p = c)
  ∧ (∀ l1 p l2, st = l1 ++ p :: l2 → Post.category p = c →
       category_posts c st = category_posts c l1 ++ p :: category_posts c l2)
  ∧ (∀ p, Post.category p = c →
       occurrences p (category_posts c st) = occurrences p st)
  ∧ (NoDup st → ∀ p, p ∈ st → Post.category p = c →
       occurrences p (category_posts c st) = 1%nat)
  ∧ category_posts c st `sublist_of` st.
Proof.
  assert (Hocc : ∀ p, Post.category p = c →
            occurrences p (category_posts c st) = occurrences p st).
  { intros p Hp. unfold category_posts. rewrite occurrences_filter.
    by rewrite decide_True. }
  split_and!.
  - apply Forall_forall. intros p Hp.
    by apply list_elem_of_filter in Hp as [Hc _].
  - intros p. unfold category_posts. rewrite list_elem_of_filter. tauto.
  - intros l1 p l2 -> Hp. rewrite category_posts_app. f_equal.
    unfold category_posts. by rewrite filter_cons_True.
  - exact Hocc.
  - intros Hnd p Hin Hp. rewrite Hocc by done. by apply occurrences_NoDup.
  - apply sublist_filter.
Qed.

Lemma category_posts_exact_witness :
  occurrences (Post.mk 2 "Styling a Classic Trench Coat" "trench-coat-styling"
      "Versatile ways to wear a timeless trench coat..."
      "static/img/trench.jpg" "Style Tips"
      ["classic"; "outerwear"; "styling"] "2025-05-08")
    (category_posts "Style Tips" posts) = 1%nat.
Proof.
  destruct (category_posts_exact posts "Style Tips") as (_ & _ & _ & _ & H & _).
  apply H.
  - apply (bool_decide_unpack _). vm_compute. exact I.
  - apply list_elem_of_further, list_elem_of_here.
  - reflexivity.
Defined.

(** ** Filter by tag *)

(** C3. For every store and tag [t], the list built at line 60 holds exactly
    the posts whose [tags] list has an element equal to [t], in store order:
    each element has [t] among its tags; a post is in the result iff it is in
    the store with [t] among its tags; a post without [t] is not in the
    result; and the result is a subsequence of the store. *)
Theorem tag_posts_exact (st : list Post.t) (t : string) :
  Forall (λ p, t ∈ Post.tags p) (tag_posts t st)
  ∧ (∀ p, p ∈ tag_posts t st ↔ p ∈ st ∧ t ∈ Post.tags p)
  ∧ (∀ p, t ∉ Post.tags p → p ∉ tag_posts t st)
  ∧ tag_posts t st `sublist_of` st.
Proof.
  split_and!.
  - apply Forall_forall. intros p Hp.
    by apply list_elem_of_filter in Hp as [Ht _].
  - intros p. unfold tag_posts. rewrite list_elem_of_filter. tauto.
  - intros p Hn Hp. by apply list_elem_of_filter in Hp as [Ht _].
  - apply sublist_filter.
Qed.

Lemma tag_posts_exact_witness :
  Post.mk 2 "Styling a Classic Trench Coat" "trench-coat-styling"
      "Versatile ways to wear a timeless trench coat..."
      "static/img/trench.jpg" "Style Tips"
      ["classic"; "outerwear"; "styling"] "2025-05-08"
  ∉ tag_posts "fashion" posts.
Proof.
  destruct (tag_posts_exact posts "fashion") as (_ & _ & H & _).
  apply H. apply (bool_decide_unpack _). vm_compute. exact I.
Defined.

(** ** Filters with no match *)

(** C4. When no post of the store has category [name], the view of
    [/category/<name>] returns normally, with the category template over the
    empty list, and leaves the process state as it was; likewise the view of
    [/tag/<name>] when no post has [name] among its tags.  Neither raises. *)
Theorem filters_empty_no_error (w : World) (name : string) :
  (name ∉ Post.category <$> store w →
     category_posts name (store w) = [] ∧
     category name w = (inr (Rendered (category_html name []) 200), w))
  ∧ (Forall (λ p, name ∉ Post.tags p) (store w) →
     tag_posts name (store w) = [] ∧
     tag name w = (inr (Rendered (tag_html name []) 200), w)).
Proof.
  split.
  - intros Hn. apply category_posts_none in Hn.
    split; [done|]. by rewrite category_run, Hn.
  - intros Hn. apply tag_posts_none in Hn.
    split; [done|]. by rewrite tag_run, Hn.
Qed.

Lemma filters_empty_no_error_witness :
  category "Streetwear" initial_world
    = (inr (Rendered (category_html "Streetwear" []) 200), initial_world)
  ∧ tag "denim" initial_world
    = (inr (Rendered (tag_html "denim" []) 200), initial_world).
Proof.
  destruct (filters_empty_no_error initial_world "Streetwear") as [Hc _].
  destruct (filters_empty_no_error initial_world "denim") as [_ Ht].
  split.
  - apply Hc. apply (bool_decide_unpack _). vm_compute. exact I.
  - apply Ht. apply (bool_decide_unpack _). vm_compute. exact I.
Defined.

(** ** The store is never written *)

Lemma admin_new_post_preserves_store (req : Request) :
  preserves_store (admin_new_post req).
Proof. unfold admin_new_post. case_decide; solve_frame. Qed.

(** C5. No view mutates the store: whatever the state, the slug, the name
    and the request (any method, any form), the store after [index], [post],
    [category], [tag], [about], [contact], [admin_dashboard],
    [admin_new_post] or [page_not_found] is the list it was before.  In
    particular a POST to [/admin/new_post] carrying a title and a content
    appends no post. *)
Theorem views_preserve_store (w : World) (slug name : string) (req : Request) :
  store (index w).2 = store w
  ∧ store (post slug w).2 = store w
  ∧ store (category name w).2 = store w
  ∧ store (tag name w).2 = store w
  ∧ store (about w).2 = store w
  ∧ store (contact w).2 = store w
  ∧ store (admin_dashboard w).2 = store w
  ∧ store (admin_new_post req w).2 = store w
  ∧ store (page_not_found w).2 = store w.
Proof.
  split_and!; try reflexivity.
  - by rewrite post_run.
  - apply admin_new_post_preserves_store.
Qed.

(** ** Missing post *)

(** C6. For every slug [s] that no post of the store carries, the view of
    [/post/<s>] returns the 404 template with status 404 and leaves the
    state as it was; this is the same response the registered 404 handler
    gives for an unmatched path. *)
Theorem post_missing_404 (w : World) (s : string) :
  s ∉ Post.slug <$> store w →
  post s w = (inr (Rendered not_found_html 404), w)
  ∧ post s w = page_not_found w.
Proof.
  intros Hn. apply find_by_slug_None in Hn.
  rewrite post_run, Hn. by split.
Qed.

Lemma post_missing_404_witness :
  post "z" initial_world = (inr (Rendered not_found_html 404), initial_world)
  ∧ post "z" initial_world = page_not_found initial_world.
Proof.
  apply (post_missing_404 initial_world "z").
  apply (bool_decide_unpack _). vm_compute. exact I.
Defined.

(** ** The worked example *)

(** C7. On the store of two posts with slugs "a" and "b", both of category
    "Trends", tagged ["x"] and ["y"] (whatever their other fields):
    filtering by category "Trends" gives both posts in that order, the lookup
    of slug "b" gives the second post, filtering by tag "x" gives only the
    first post, and the lookup of slug "z" gives [None]. *)
Theorem two_post_store_example
    (ida idb : Z) (ta tb ca cb ia ib da db : string) :
  let a := Post.mk ida ta "a" ca ia "Trends" ["x"] da in
  let b := Post.mk idb tb "b" cb ib "Trends" ["y"] db in
  category_posts "Trends" [a; b] = [a; b]
  ∧ find_by_slug "b" [a; b] = Some b
  ∧ tag_posts "x" [a; b] = [a]
  ∧ find_by_slug "z" [a; b] = None.
Proof. intros a b. by split_and!; vm_compute. Qed.

(** ** Repeated tags *)

(** C8. A post whose [tags] list has [t] more than once contributes one
    element to the result of filtering by [t]: the entry is kept once, at its
    place, the result has the post as often as the store has it, and the
    store holding only that post gives the one-element list. *)
Theorem tag_posts_repeated_tag_once
    (l1 l2 : list Post.t) (p : Post.t) (t : string) :
  (1 < occurrences t (Post.tags p))%nat →
  tag_posts t (l1 ++ p :: l2) = tag_posts t l1 ++ p :: tag_posts t l2
  ∧ occurrences p (tag_posts t (l1 ++ p :: l2)) = occurrences p (l1 ++ p :: l2)
  ∧ tag_posts t [p] = [p].
Proof.
  intros Hrep.
  assert (Hin : t ∈ Post.tags p) by (apply occurrences_pos_elem_of; lia).
  split_and!.
  - rewrite tag_posts_app. f_equal. unfold tag_posts. by rewrite filter_cons_True.
  - unfold tag_posts. rewrite occurrences_filter. by rewrite decide_True.
  - unfold tag_posts. by rewrite filter_cons_True.
Qed.

Lemma tag_posts_repeated_tag_once_witness :
  tag_posts "denim"
    [Post.mk 3 "Denim" "denim" "..." "static/img/denim.jpg" "Trends"
       ["denim"; "classic"; "denim"] "2025-05-10"]
  = [Post.mk 3 "Denim" "denim" "..." "static/img/denim.jpg" "Trends"
       ["denim"; "classic"; "denim"] "2025-05-10"].
Proof.
  apply (tag_posts_repeated_tag_once posts posts
    (Post.mk 3 "Denim" "denim" "..." "static/img/denim.jpg" "Trends"
       ["denim"; "classic"; "denim"] "2025-05-10") "denim").
  vm_compute. lia.
Defined.

(** ** Categories partition, tags overlap *)

(** C9. For two different category names the results of filtering by
    category share no post, since a post has one category; whereas one post
    can be in the results of filtering by two different tags (the first post
    of the initial store, for "sustainable" and "fashion"). *)
Theorem category_posts_disjoint (st : list Post.t) (c1 c2 : string) :
  c1 ≠ c2 →
  (∀ p, ¬ (p ∈ category_posts c1 st ∧ p ∈ category_posts c2 st))
  ∧ (∃ (st' : list Post.t) (p : Post.t) (t1 t2 : string),
       t1 ≠ t2 ∧ p ∈ tag_posts t1 st' ∧ p ∈ tag_posts t2 st').
Proof.
  intros Hne. split.
  - intros p [[H1 _]%list_elem_of_filter [H2 _]%list_elem_of_filter].
    congruence.
  - exists posts,
      (Post.mk 1 "The Rise of Sustainable Fashion" "sustainable-fashion"
         "Explore the growing movement towards eco-conscious clothing..."
         "static/img/sustainable.jpg" "Trends"
         ["sustainable"; "eco-friendly"; "fashion"] "2025-05-09"),
      "sustainable", "fashion".
    split_and!; [done| |]; apply (bool_decide_unpack _); by vm_compute.
Qed.

Lemma category_posts_disjoint_witness :
  (∀ p, ¬ (p ∈ category_posts "Trends" posts
           ∧ p ∈ category_posts "Style Tips" posts))
  ∧ (∃ (st' : list Post.t) (p : Post.t) (t1 t2 : string),
       t1 ≠ t2 ∧ p ∈ tag_posts t1 st' ∧ p ∈ tag_posts t2 st').
Proof.
  apply (category_posts_disjoint posts "Trends" "Style Tips"). discriminate.
Defined.

(** ** The creation route *)

(** C10. For every POST to [/admin/new_post] whose form has a "title" field
    and a "content" field, whatever their values, the view returns normally
    with a redirect (302) to the rule of the admin dashboard, "/admin"; so it
    neither raises nor renders the creation form.  The only effect is the
    printed line. *)
Theorem admin_new_post_redirects (req : Request) (w : World) :
  method req = "POST" →
  "title" ∈ (form req).*1 →
  "content" ∈ (form req).*1 →
  ∃ title,
    form_lookup "title" (form req) = Some title
    ∧ admin_new_post req w =
        (inr (Redirect (rule ep_admin_dashboard) 302),
         mkWorld (store w) (stdout w ++ ["New post created: " +:+ title]))
    ∧ rule ep_admin_dashboard = "/admin".
Proof.
  intros Hm [title Ht]%form_lookup_is_Some [content Hc]%form_lookup_is_Some.
  exists title. split_and!; [done| |done].
  unfold admin_new_post, form_get, mbind, M_bind.
  rewrite decide_True by done. by rewrite Ht, Hc.
Qed.

Lemma admin_new_post_redirects_witness :
  ∃ title,
    form_lookup "title" [("title", ""); ("content", "")] = Some title
    ∧ admin_new_post (mkRequest "POST" [("title", ""); ("content", "")])
        initial_world =
        (inr (Redirect (rule ep_admin_dashboard) 302),
         mkWorld (store initial_world)
           (stdout initial_world ++ ["New post created: " +:+ title]))
    ∧ rule ep_admin_dashboard = "/admin".
Proof.
  apply (admin_new_post_redirects
           (mkRequest "POST" [("title", ""); ("content", "")]) initial_world).
  - reflexivity.
  - apply (bool_decide_unpack _). vm_compute. exact I.
  - apply (bool_decide_unpack _). vm_compute. exact I.
Defined.

(** * Further properties of the views *)

(** ** Post pages *)

Lemma find_by_slug_slug (s : string) (st : list Post.t) (p : Post.t) :
  find_by_slug s st = Some p → Post.slug p = s ∧ p ∈ st.
Proof.
  intros (l1 & l2 & -> & Hs & _)%find_by_slug_Some. split; [done|].
  apply elem_of_app. right. apply list_elem_of_here.
Qed.

Lemma find_by_slug_present (s : string) (st : list Post.t) :
  s ∈ Post.slug <$> st → ∃ p, find_by_slug s st = Some p.
Proof.
  intros Hin. destruct (find_by_slug s st) as [p|] eqn:Hf; [by exists p|].
  apply find_by_slug_None in Hf. by destruct Hf.
Qed.

(** X1. The view of [/post/<s>] answers 200 with the post template exactly
    when some post of the store has slug [s], and the post shown is in the
    store and has that slug; it answers 404 exactly when none has.  Either
    way the state is left as it was. *)
Theorem post_status_by_presence (w : World) (s : string) :
  (s ∈ Post.slug <$> store w ↔
     ∃ p, post s w = (inr (Rendered (post_html p) 200), w)
          ∧ Post.slug p = s ∧ p ∈ store w)
  ∧ (s ∉ Post.slug <$> store w ↔
     post s w = (inr (Rendered not_found_html 404), w)).
Proof.
  rewrite post_run. split; split.
  - intros [p Hp]%find_by_slug_present. exists p. rewrite Hp.
    by apply find_by_slug_slug in Hp as [??].
  - intros (p & _ & <- & Hp). by apply list_elem_of_fmap_2.
  - intros Hn. apply find_by_slug_None in Hn. by rewrite Hn.
  - destruct (find_by_slug s (store w)) as [p|] eqn:Hf; [done|].
    intros _. by apply find_by_slug_None.
Qed.

Lemma post_status_by_presence_witness :
  ∃ p, post "sustainable-fashion" initial_world
         = (inr (Rendered (post_html p) 200), initial_world)
       ∧ Post.slug p = "sustainable-fashion" ∧ p ∈ store initial_world.
Proof.
  destruct (post_status_by_presence initial_world "sustainable-fashion")
    as [[H _] _].
  apply H. apply (bool_decide_unpack _). vm_compute. exact I.
Defined.

(** X2. When the slugs of the store are pairwise different, looking up the
    slug of a stored post returns that very post. *)
Theorem find_by_slug_unique (st : list Post.t) (p : Post.t) :
  NoDup (Post.slug <$> st) → p ∈ st → find_by_slug (Post.slug p) st = Some p.
Proof.
  induction st as [|q st IH]; [by intros _ ?%elem_of_nil|].
  rewrite fmap_cons. intros [Hq Hnd]%NoDup_cons [->|Hp]%elem_of_cons.
  - by apply find_by_slug_cons_eq.
  - rewrite find_by_slug_cons_ne; [by apply IH|].
    intros Heq. apply Hq. rewrite Heq. by apply list_elem_of_fmap_2.
Qed.

Lemma find_by_slug_unique_witness :
  find_by_slug "trench-coat-styling" posts
  = Some (Post.mk 2 "Styling a Classic Trench Coat" "trench-coat-styling"
      "Versatile ways to wear a timeless trench coat..."
      "static/img/trench.jpg" "Style Tips"
      ["classic"; "outerwear"; "styling"] "2025-05-08").
Proof.
  apply (find_by_slug_unique posts
    (Post.mk 2 "Styling a Classic Trench Coat" "trench-coat-styling"
      "Versatile ways to wear a timeless trench coat..."
      "static/img/trench.jpg" "Style Tips"
      ["classic"; "outerwear"; "styling"] "2025-05-08")).
  - apply (bool_decide_unpack _). vm_compute. exact I.
  - apply list_elem_of_further, list_elem_of_here.
Defined.

(** X3. A post that shares its slug with a different post placed before it
    is shadowed: when [q] is not among the entries up to and including [p]
    and has the slug of [p], no slug makes the lookup return [q]. *)
Theorem find_by_slug_shadowed
    (l1 l2 : list Post.t) (p q : Post.t) (s : string) :
  Post.slug p = Post.slug q → q ∉ l1 → q ≠ p →
  find_by_slug s (l1 ++ p :: l2) ≠ Some q.
Proof.
  intros Hpq Hq Hne. induction l1 as [|x l1 IH]; simpl.
  - destruct (decide (Post.slug p = s)) as [Hs|Hs].
    + rewrite find_by_slug_cons_eq by done. congruence.
    + rewrite find_by_slug_cons_ne by done.
      intros [Hqs _]%find_by_slug_slug. congruence.
  - apply not_elem_of_cons in Hq as [Hqx Hq].
    destruct (decide (Post.slug x = s)) as [Hs|Hs].
    + rewrite find_by_slug_cons_eq by done. congruence.
    + rewrite find_by_slug_cons_ne by done. by apply IH.
Qed.

Lemma find_by_slug_shadowed_witness :
  find_by_slug "sale"
    ([] ++ Post.mk 1 "Summer" "sale" "..." "static/img/s.jpg" "Trends" [] "2025-06-01"
        :: [Post.mk 2 "Winter" "sale" "..." "static/img/w.jpg" "Trends" [] "2025-12-01"])
  ≠ Some (Post.mk 2 "Winter" "sale" "..." "static/img/w.jpg" "Trends" [] "2025-12-01").
Proof.
  apply (find_by_slug_shadowed [] _ _ _ "sale").
  - reflexivity.
  - apply not_elem_of_nil.
  - discriminate.
Defined.

(** X4. Every post listed on a category page or on a tag page has a post
    page: the view of [/post/<its slug>] answers 200 with a post of that
    slug, never 404. *)
Theorem listed_posts_have_pages (w : World) (name : string) (p : Post.t) :
  p ∈ category_posts name (store w) ∨ p ∈ tag_posts name (store w) →
  ∃ q, post (Post.slug p) w = (inr (Rendered (post_html q) 200), w)
       ∧ Post.slug q = Post.slug p.
Proof.
  intros Hp.
  assert (Hin : p ∈ store w).
  { destruct Hp as [Hp|Hp]; by apply list_elem_of_filter in Hp as [_ ?]. }
  destruct (find_by_slug_present (Post.slug p) (store w)) as [q Hq].
  { by apply list_elem_of_fmap_2. }
  exists q. rewrite post_run, Hq. split; [done|].
  by apply find_by_slug_slug in Hq as [??].
Qed.

Lemma listed_posts_have_pages_witness :
  ∃ q, post "trench-coat-styling" initial_world
         = (inr (Rendered (post_html q) 200), initial_world)
       ∧ Post.slug q = "trench-coat-styling".
Proof.
  apply (listed_posts_have_pages initial_world "outerwear"
    (Post.mk 2 "Styling a Classic Trench Coat" "trench-coat-styling"
      "Versatile ways to wear a timeless trench coat..."
      "static/img/trench.jpg" "Style Tips"
      ["classic"; "outerwear"; "styling"] "2025-05-08")).
  right. apply (bool_decide_unpack _). vm_compute. exact I.
Defined.

(** ** Category pages partition the store *)

Lemma filter_all {A : Type} (P : A → Prop) `{∀ x, Decision (P x)} (l : list A) :
  Forall P l → filter P l = l.
Proof.
  induction 1 as [|x l Hx _ IH]; [done|].
  rewrite filter_cons_True by done. by rewrite IH.
Qed.

Lemma category_pages_over (cs : list string) (st : list Post.t) :
  NoDup cs →
  (cs ≫= λ c, category_posts c st) ≡ₚ filter (λ p, Post.category p ∈ cs) st.
Proof.
  induction 1 as [|c cs Hc Hnd IH]; simpl.
  - induction st as [|p st IHst]; [done|].
    rewrite filter_cons_False; [done|]. apply not_elem_of_nil.
  - rewrite IH. clear IH. unfold category_posts.
    induction st as [|p st IHst]; [done|].
    destruct (decide (Post.category p = c)) as [Hp|Hp].
    + rewrite (filter_cons_True (λ p, Post.category p = c)) by done.
      rewrite (filter_cons_True (λ p, Post.category p ∈ c :: cs))
        by (rewrite Hp; apply list_elem_of_here).
      rewrite (filter_cons_False (λ p, Post.category p ∈ cs)) by congruence.
      simpl. by rewrite IHst.
    + rewrite (filter_cons_False (λ p, Post.category p = c)) by done.
      destruct (decide (Post.category p ∈ cs)) as [Hin|Hin].
      * rewrite (filter_cons_True (λ p, Post.category p ∈ cs)) by done.
        rewrite (filter_cons_True (λ p, Post.category p ∈ c :: cs))
          by (by apply list_elem_of_further).
        rewrite <- Permutation_middle. by rewrite IHst.
      * rewrite (filter_cons_False (λ p, Post.category p ∈ cs)) by done.
        rewrite (filter_cons_False (λ p, Post.category p ∈ c :: cs)); [done|].
        rewrite not_elem_of_cons. by split.
Qed.

(** X5. The category pages partition the store: putting together the
    results of filtering by each category that occurs in the store, each
    taken once, gives the posts of the store, every entry once. *)
Theorem category_pages_partition (st : list Post.t) :
  (remove_dups (Post.category <$> st) ≫= λ c, category_posts c st) ≡ₚ st.
Proof.
  rewrite category_pages_over by apply NoDup_remove_dups.
  rewrite filter_all; [done|].
  apply Forall_forall. intros p Hp.
  by apply elem_of_remove_dups, list_elem_of_fmap_2.
Qed.

(** ** The creation route: every way through it *)

Lemma form_lookup_None (k : string) (fields : list (string * string)) :
  k ∉ fields.*1 → form_lookup k fields = None.
Proof.
  induction fields as [|[k' v] fields IH]; [done|]. simpl.
  rewrite not_elem_of_cons. intros [Hne Hk].
  rewrite decide_False by congruence. by apply IH.
Qed.

Lemma form_lookup_Some_elem_of (k v : string) (fields : list (string * string)) :
  form_lookup k fields = Some v → k ∈ fields.*1.
Proof.
  intros Hl. destruct (decide (k ∈ fields.*1)) as [|Hn]; [done|].
  by rewrite form_lookup_None in Hl.
Qed.

(** What [admin_new_post] returns, by cases on the method and on the two
    form lookups in the order the code makes them. *)
Lemma admin_new_post_run (req : Request) (w : World) :
  admin_new_post req w =
  if decide (method req = "POST") then
    match form_lookup "title" (form req) with
    | None => (inl (BadRequestKeyError "title"), w)
    | Some title =>
        match form_lookup "content" (form req) with
        | None => (inl (BadRequestKeyError "content"), w)
        | Some _ =>
            (inr (Redirect "/admin" 302),
             mkWorld (store w) (stdout w ++ ["New post created: " +:+ title]))
        end
    end
  else (inr (Rendered admin_new_post_html 200), w).
Proof.
  unfold admin_new_post, form_get, mbind, M_bind.
  case_decide; [|done].
  destruct (form_lookup "title" (form req)) as [title|]; [|done].
  by destruct (form_lookup "content" (form req)).
Qed.

(** X6. A POST to [/admin/new_post] whose form has no "title" field raises
    the key error for "title", whether or not "content" is there, and leaves
    the state as it was: nothing is printed. *)
Theorem admin_new_post_missing_title (req : Request) (w : World) :
  method req = "POST" → "title" ∉ (form req).*1 →
  admin_new_post req w = (inl (BadRequestKeyError "title"), w).
Proof.
  intros Hm Ht. rewrite admin_new_post_run, decide_True by done.
  by rewrite form_lookup_None.
Qed.

Lemma admin_new_post_missing_title_witness :
  admin_new_post (mkRequest "POST" [("content", "text")]) initial_world
  = (inl (BadRequestKeyError "title"), initial_world).
Proof.
  apply (admin_new_post_missing_title
           (mkRequest "POST" [("content", "text")]) initial_world).
  - reflexivity.
  - apply (bool_decide_unpack _). vm_compute. exact I.
Defined.

(** X7. A POST whose form has a "title" but no "content" raises the key
    error for "content" and leaves the state as it was: the title is not
    printed, since the [print] comes after both lookups. *)
Theorem admin_new_post_missing_content (req : Request) (w : World) :
  method req = "POST" → "title" ∈ (form req).*1 → "content" ∉ (form req).*1 →
  admin_new_post req w = (inl (BadRequestKeyError "content"), w).
Proof.
  intros Hm [title Ht]%form_lookup_is_Some Hc.
  rewrite admin_new_post_run, decide_True by done.
  by rewrite Ht, form_lookup_None.
Qed.

Lemma admin_new_post_missing_content_witness :
  admin_new_post (mkRequest "POST" [("title", "Linen")]) initial_world
  = (inl (BadRequestKeyError "content"), initial_world).
Proof.
  apply (admin_new_post_missing_content
           (mkRequest "POST" [("title", "Linen")]) initial_world).
  - reflexivity.
  - apply (bool_decide_unpack _). vm_compute. exact I.
  - apply (bool_decide_unpack _). vm_compute. exact I.
Defined.



(** X9. [admin_new_post] answers with a redirect only for a POST whose form
    has both fields, and prints a line only then: otherwise the standard
    output is left as it was. *)
Theorem admin_new_post_redirect_iff (req : Request) (w : World) :
  ((∃ location status w',
      admin_new_post req w = (inr (Redirect location status), w')) ↔
   method req = "POST" ∧ "title" ∈ (form req).*1 ∧ "content" ∈ (form req).*1)
  ∧ (stdout (admin_new_post req w).2 ≠ stdout w ↔
   method req = "POST" ∧ "title" ∈ (form req).*1 ∧ "content" ∈ (form req).*1).
Proof.
  rewrite admin_new_post_run.
  destruct (decide (method req = "POST")) as [Hm|Hm];
    [destruct (form_lookup "title" (form req)) as [title|] eqn:Ht;
     [destruct (form_lookup "content" (form req)) as [content|] eqn:Hc|]|].
  - assert ("title" ∈ (form req).*1) by by eapply form_lookup_Some_elem_of.
    assert ("content" ∈ (form req).*1) by by eapply form_lookup_Some_elem_of.
    split; split; try done.
    + intros _. by eexists _, _, _.
    + intros _. simpl. intros Heq.
      apply (f_equal length) in Heq. rewrite length_app in Heq. simpl in Heq. lia.
  - split; split; simpl; try done.
    + by intros (? & ? & ? & ?).
    + intros (_ & _ & [v Hv]%form_lookup_is_Some). congruence.
    + intros (_ & _ & [v Hv]%form_lookup_is_Some). congruence.
  - split; split; simpl; try done.
    + by intros (? & ? & ? & ?).
    + intros (_ & [v Hv]%form_lookup_is_Some & _). congruence.
    + intros (_ & [v Hv]%form_lookup_is_Some & _). congruence.
  - split; split; simpl; try done.
    + by intros (? & ? & ? & ?).
    + by intros (? & _).
    + by intros (? & _).
Qed.

Lemma admin_new_post_redirect_iff_witness :
  ∃ location status w',
    admin_new_post (mkRequest "POST" [("content", "text"); ("title", "Linen")])
      initial_world
    = (inr (Redirect location status), w').
Proof.
  destruct (admin_new_post_redirect_iff
              (mkRequest "POST" [("content", "text"); ("title", "Linen")])
              initial_world) as [[_ H] _].
  apply H. split_and!.
  - reflexivity.
  - apply (bool_decide_unpack _). vm_compute. exact I.
  - apply (bool_decide_unpack _). vm_compute. exact I.
Defined.

(** ** Serving requests in sequence *)

Lemma dispatch_preserves_store (c : Call) : preserves_store (dispatch c).
Proof.
  destruct c; simpl; try (by intros w).
  - intros w. by rewrite post_run.
  - apply admin_new_post_preserves_store.
Qed.

Lemma dispatch_stdout (c : Call) (w : World) :
  stdout (dispatch c w).2 =
  stdout w ++ match created_title c with
              | Some title => ["New post created: " +:+ title]
              | None => []
              end.
Proof.
  destruct c as [| slug | | | | | | req |]; simpl;
    try (by rewrite app_nil_r).
  - by rewrite post_run, app_nil_r.
  - rewrite admin_new_post_run. case_decide; [|by rewrite app_nil_r].
    destruct (form_lookup "title" (form req)) as [title|];
      [|by rewrite app_nil_r].
    destruct (form_lookup "content" (form req)); [done|by rewrite app_nil_r].
Qed.

Lemma serve_all_store (cs : list Call) (w : World) :
  store (serve_all cs w) = store w.
Proof.
  revert w. induction cs as [|c cs IH]; intros w; simpl; [done|].
  rewrite IH. apply dispatch_preserves_store.
Qed.

(** X10. After any sequence of requests the store is the one the sequence
    started from, so what the index, a post page, a category page and a tag
    page show does not depend on the requests served before: in particular
    no number of POSTs to [/admin/new_post] makes a new post appear. *)
Theorem lookups_independent_of_history
    (cs : list Call) (w : World) (s name : string) :
  store (serve_all cs w) = store w
  ∧ (index (serve_all cs w)).1 = (index w).1
  ∧ (post s (serve_all cs w)).1 = (post s w).1
  ∧ (category name (serve_all cs w)).1 = (category name w).1
  ∧ (tag name (serve_all cs w)).1 = (tag name w).1.
Proof.
  pose proof (serve_all_store cs w) as Hst.
  split_and!; [done|..].
  - unfold index, mbind, M_bind, read_posts, render_template. simpl.
    by rewrite Hst.
  - by rewrite !post_run, Hst.
  - by rewrite !category_run, Hst.
  - by rewrite !tag_run, Hst.
Qed.

(** X11. The standard output after a sequence of requests is the output
    before it followed by one line "New post created: <title>" for each POST
    to [/admin/new_post] that carried both fields, in the order served;
    no other request prints. *)
Theorem serve_all_stdout (cs : list Call) (w : World) :
  stdout (serve_all cs w) =
  stdout w ++ ((λ title, "New post created: " +:+ title) <$> omap created_title cs).
Proof.
  revert w. induction cs as [|c cs IH]; intros w; simpl.
  - by rewrite app_nil_r.
  - rewrite IH, dispatch_stdout.
    destruct (created_title c) as [title|]; simpl.
    + by rewrite <- app_assoc.
    + by rewrite app_nil_r.
Qed.



(** ** The slug computed from a title *)

Lemma new_post_slug_cons (c : ascii) (s : string) :
  new_post_slug (String c s) = String (slug_char c) (new_post_slug s).
Proof. reflexivity. Qed.

Ltac ascii_cases c :=
  destruct c as [[] [] [] [] [] [] [] []]; vm_compute.

Lemma slug_char_not_space (c : ascii) : is_space_char (slug_char c) = false.
Proof. ascii_cases c; reflexivity. Qed.

Lemma slug_char_not_upper (c : ascii) : is_upper_char (slug_char c) = false.
Proof. ascii_cases c; reflexivity. Qed.

Lemma slug_char_ascii (c : ascii) :
  is_ascii_char c = true → is_ascii_char (slug_char c) = true.
Proof. ascii_cases c; intros; congruence. Qed.

Lemma slug_char_idem (c : ascii) : slug_char (slug_char c) = slug_char c.
Proof. ascii_cases c; reflexivity. Qed.

Lemma slug_char_fixed (c : ascii) :
  slug_char c = c ↔ (negb (is_space_char c) && negb (is_upper_char c))%bool = true.
Proof. ascii_cases c; split; intros; congruence. Qed.

Lemma string_forallb_String (f : ascii → bool) (c : ascii) (s : string) :
  string_forallb f (String c s) = true ↔ f c = true ∧ string_forallb f s = true.
Proof. simpl. apply andb_true_iff. Qed.

Lemma new_post_slug_length (title : string) :
  String.length (new_post_slug title) = String.length title.
Proof.
  induction title as [|c title IH]; [done|].
  rewrite new_post_slug_cons. simpl. by rewrite IH.
Qed.

Lemma new_post_slug_no_space (title : string) :
  string_forallb (λ c, negb (is_space_char c)) (new_post_slug title) = true.
Proof.
  induction title as [|c title IH]; [done|].
  rewrite new_post_slug_cons. apply string_forallb_String.
  by rewrite slug_char_not_space.
Qed.

Lemma new_post_slug_no_upper (title : string) :
  string_forallb (λ c, negb (is_upper_char c)) (new_post_slug title) = true.
Proof.
  induction title as [|c title IH]; [done|].
  rewrite new_post_slug_cons. apply string_forallb_String.
  by rewrite slug_char_not_upper.
Qed.

Lemma new_post_slug_is_ascii (title : string) :
  is_ascii title = true → is_ascii (new_post_slug title) = true.
Proof.
  unfold is_ascii. induction title as [|c title IH]; [done|].
  intros [Hc Ht]%string_forallb_String. rewrite new_post_slug_cons.
  apply string_forallb_String. split; [by apply slug_char_ascii|by apply IH].
Qed.

Lemma new_post_slug_fixed_iff (title : string) :
  new_post_slug title = title ↔
  string_forallb (λ c, negb (is_space_char c) && negb (is_upper_char c)) title
  = true.
Proof.
  induction title as [|c title IH]; [done|].
  rewrite new_post_slug_cons, string_forallb_String, <- IH, <- slug_char_fixed.
  split; [by intros [= ??]|by intros [-> ->]].
Qed.

Lemma new_post_slug_idem (title : string) :
  new_post_slug (new_post_slug title) = new_post_slug title.
Proof.
  induction title as [|c title IH]; [done|].
  by rewrite !new_post_slug_cons, slug_char_idem, IH.
Qed.

(** X13. For a title of ASCII characters, the slug of line 80 has as many
    characters as the title, has no space and no capital letter, and is made
    of ASCII characters. *)
Theorem new_post_slug_shape (title : string) :
  is_ascii title = true →
  String.length (new_post_slug title) = String.length title
  ∧ string_forallb (λ c, negb (is_space_char c)) (new_post_slug title) = true
  ∧ string_forallb (λ c, negb (is_upper_char c)) (new_post_slug title) = true
  ∧ is_ascii (new_post_slug title) = true.
Proof.
  intros Hasc. split_and!.
  - apply new_post_slug_length.
  - apply new_post_slug_no_space.
  - apply new_post_slug_no_upper.
  - by apply new_post_slug_is_ascii.
Qed.

Lemma new_post_slug_shape_witness :
  String.length (new_post_slug "Linen Suits") = String.length "Linen Suits"
  ∧ string_forallb (λ c, negb (is_space_char c)) (new_post_slug "Linen Suits") = true
  ∧ string_forallb (λ c, negb (is_upper_char c)) (new_post_slug "Linen Suits") = true
  ∧ is_ascii (new_post_slug "Linen Suits") = true.
Proof. apply (new_post_slug_shape "Linen Suits"). reflexivity. Defined.

(** X14. For a title of ASCII characters, the slug is the title itself
    exactly when the title has no space and no capital letter: every other
    character, punctuation and "/" included, goes into the slug as it is. *)
Theorem new_post_slug_fixed (title : string) :
  is_ascii title = true →
  (new_post_slug title = title ↔
   string_forallb (λ c, negb (is_space_char c) && negb (is_upper_char c)) title
   = true).
Proof. intros _. apply new_post_slug_fixed_iff. Qed.

Lemma new_post_slug_fixed_witness :
  new_post_slug "a/b?c=d" = "a/b?c=d".
Proof.
  destruct (new_post_slug_fixed "a/b?c=d") as [_ H]; [reflexivity|].
  apply H. reflexivity.
Defined.

(** X15. For a title of ASCII characters, taking the slug of the slug gives
    the slug again; so a title with a space or a capital letter is not the
    only title with its slug: its slug, taken as a title, is a different
    ASCII title with the same slug. *)
Theorem new_post_slug_collision (title : string) :
  is_ascii title = true →
  new_post_slug (new_post_slug title) = new_post_slug title
  ∧ (string_forallb (λ c, negb (is_space_char c) && negb (is_upper_char c)) title
     = false →
     ∃ other, other ≠ title ∧ is_ascii other = true
              ∧ new_post_slug other = new_post_slug title).
Proof.
  intros Hasc. split; [apply new_post_slug_idem|].
  intros Hbad. exists (new_post_slug title). split_and!.
  - intros Heq. apply new_post_slug_fixed_iff in Heq. congruence.
  - by apply new_post_slug_is_ascii.
  - apply new_post_slug_idem.
Qed.

Lemma new_post_slug_collision_witness :
  ∃ other, other ≠ "Linen Suits" ∧ is_ascii other = true
           ∧ new_post_slug other = new_post_slug "Linen Suits".
Proof.
  destruct (new_post_slug_collision "Linen Suits") as [_ H]; [reflexivity|].
  apply H. reflexivity.
Defined.

(** ** Where a 404 or an exception can come from *)


